(** * pipe2py.modules.pipeitembuilder: the item builder

    A shallow embedding of [parser] from
    [pipe2py/modules/pipeitembuilder.py] and of the dotted-path merge it
    delegates to, together with the properties stated about them. *)

From Stdlib Require Import ZArith Ascii String.
From stdpp Require Import base option list strings gmap fin_maps.

Open Scope string_scope.
Open Scope list_scope.

#[local] Set Warnings "-register-all".

(** ** Data model *)

(** A Python value as the builder sees it: a scalar ([None], an integer, a
    string) or a [dict] with string keys whose values are values again. *)
Inductive item : Type :=
  | PNone : item
  | PInt : Z -> item
  | PStr : string -> item
  | PDict : gmap string item -> item.

(** The predicate "is a mapping" used when walking a path. *)
Definition is_dict (v : item) : bool :=
  match v with PDict _ => true | _ => false end.

(** An attribute descriptor is an arbitrary Python object: reading [a.key] or
    [a.value] either yields a value or raises [AttributeError].  [None] in a
    field stands for an object that does not have the attribute. *)
Record descriptor : Type := Descriptor {
  key : option string;
  value : option item
}.

(** The one-entry dict [{a.key: a.value}]. *)
Abbreviation flat_entry := (string * item)%type (only parsing).

(** Exceptions: [AttributeError] and [KeyError] are the ones the statements
    of [parser] raise. *)
Inductive exn : Type :=
  | AttributeError : exn
  | KeyError : string -> exn.

(** The outcome of a call: a returned value or a raised exception. *)
Inductive res (A : Type) : Type :=
  | Ret : A -> res A
  | Raise : exn -> res A.
Arguments Ret {A} _.
Arguments Raise {A} _.

(** Sequencing: an exception raised by the first step is the outcome. *)
#[global] Instance res_bind : MBind res := λ A B f r,
  match r with
  | Ret a => f a
  | Raise e => Raise e
  end.

(** Modelled from the spec: the error taxonomy of section 7 (the source names
    no error kinds): [InvalidAttribute] for a descriptor without a usable
    key, [UpstreamMissing] for a skipped call that was given no upstream
    item. *)
Inductive error_kind : Type :=
  | InvalidAttribute : error_kind
  | UpstreamMissing : error_kind.

(** Modelled from the spec: the kind each exception belongs to (section 7). *)
Definition kind_of (e : exn) : error_kind :=
  match e with
  | AttributeError => InvalidAttribute
  | KeyError _ => UpstreamMissing
  end.

(** [r] fails with kind [k]. *)
Definition fails_with {A : Type} (k : error_kind) (r : res A) : Prop :=
  match r with
  | Raise e => kind_of e = k
  | Ret _ => False
  end.

(** ** Dotted keys *)

(** Modelled from the spec: step a of section 4.2 splits a key on the
    separator, as [str.split(sep)] does for a one-character separator: the
    empty string splits into one empty segment, and [n] separators give
    [n + 1] segments. *)
Fixpoint split (sep : ascii) (s : string) : list string :=
  match s with
  | EmptyString => [EmptyString]
  | String c s' =>
      if Ascii.eqb c sep then EmptyString :: split sep s'
      else match split sep s' with
           | [] => [String c EmptyString]
           | seg :: segs => String c seg :: segs
           end
  end.

(** Modelled from the spec: splitting a key of the absent [DotDict] into path
    segments (step a of section 4.2).  No key is refused: sections 7 and 9
    record that the source does not validate keys, and [parser] hands them on
    unchecked. *)
Definition parse_key (k : string) : list string := split "." k.

(** ** The path-merge builder *)

(** Modelled from the spec: the mapping found under segment [s] (step b of
    section 4.2), or a new empty one when [s] is absent or holds a value that
    is not a mapping. *)
Definition child (s : string) (m : gmap string item) : gmap string item :=
  match m !! s with
  | Some (PDict sub) => sub
  | _ => ∅
  end.

(** Modelled from the spec: one write of the absent [DotDict] (section 4.2,
    steps b and c): walk the segments but the last, creating or replacing
    intermediate mappings, and set the last segment to [v]. *)
Fixpoint set_path (p : list string) (v : item) (m : gmap string item)
  : gmap string item :=
  match p with
  | [] => m
  | s :: p' =>
      match p' with
      | [] => <[s := v]> m
      | _ :: _ => <[s := PDict (set_path p' v (child s m))]> m
      end
  end.

(** Modelled from the spec: step 2 of section 4.2 for one flat entry. *)
Definition set_entry (acc : gmap string item) (e : flat_entry)
  : gmap string item :=
  set_path (parse_key e.1) e.2 acc.

(** Modelled from the spec: step 2 of section 4.2, the entries are written
    in sequence order. *)
Fixpoint merge_from (acc : gmap string item) (dicts : list flat_entry)
  : gmap string item :=
  match dicts with
  | [] => acc
  | e :: dicts' => merge_from (set_entry acc e) dicts'
  end.

(** Modelled from the spec: [DotDict(cdicts( *dicts))], the composition of the
    absent [pipe2py.lib.utils.combine_dicts] and
    [pipe2py.lib.dotdict.DotDict], is the path-merge builder of section 4.2:
    start from an empty item and fold the flat entries into it. *)
Definition DotDict_cdicts (dicts : list flat_entry) : res item :=
  Ret (PDict (merge_from ∅ dicts)).

(** Walking a path from a value: the value reached, if every segment but the
    last leads to a mapping that has the next segment. *)
Fixpoint walk (p : list string) (v : item) : option item :=
  match p with
  | [] => Some v
  | s :: p' =>
      match v with
      | PDict m => match m !! s with
                   | Some v' => walk p' v'
                   | None => None
                   end
      | _ => None
      end
  end.

(** ** The parser *)

(** [{a.key: a.value}] *)
Definition normalize (a : descriptor) : res flat_entry :=
  match key a, value a with
  | Some k, Some v => Ret (k, v)
  | _, _ => Raise AttributeError
  end.

(** [[{a.key: a.value} for a in attrs]] *)
Fixpoint normalize_all (attrs : list descriptor) : res (list flat_entry) :=
  match attrs with
  | [] => Ret []
  | a :: attrs' =>
      d ← normalize a; ds ← normalize_all attrs'; Ret (d :: ds)
  end.

(** [kwargs['feed']] *)
Definition getitem (kwargs : gmap string item) (k : string) : res item :=
  match kwargs !! k with
  | Some v => Ret v
  | None => Raise (KeyError k)
  end.

Section Parser.
(** The builder called on the flat entries: [lambda dicts:
    DotDict(cdicts( *dicts))]. *)
Variable build : list flat_entry -> res item.

  (** [parser(_, attrs, skip, **kwargs)], lines 66 to 68. *)
Definition parser_with (attrs : list descriptor) (skip : bool)
    (kwargs : gmap string item) : res (item * bool) :=
  dicts ← normalize_all attrs;
  feed ← (if skip then getitem kwargs "feed" else build dicts);
  Ret (feed, skip).
End Parser.

Definition parser : list descriptor -> bool -> gmap string item
    -> res (item * bool) :=
  parser_with DotDict_cdicts.

Definition attr (k : string) (v : item) : descriptor :=
  Descriptor (Some k) (Some v).

(** The descriptor a flat entry comes from. *)
Definition of_entry (e : flat_entry) : descriptor := attr e.1 e.2.

(** A descriptor on which both [a.key] and [a.value] can be read. *)
Definition has_attrs (a : descriptor) : bool :=
  match key a, value a with
  | Some _, Some _ => true
  | _, _ => false
  end.

(** ** Predicates on keys and paths *)

(** A key without the separator. *)
Fixpoint no_dot (k : string) : bool :=
  match k with
  | EmptyString => true
  | String c k' => negb (Ascii.eqb c ".") && no_dot k'
  end.

(** Two paths conflict when one of them is a prefix of the other: they are
    equal, or one extends the other. *)
Definition conflict (p q : list string) : Prop :=
  p `prefix_of` q ∨ q `prefix_of` p.

(** The chain of nested mappings along [p] that ends in the leaf [v]. *)
Fixpoint chain (p : list string) (v : item) : item :=
  match p with
  | [] => v
  | s :: p' => PDict {[ s := chain p' v ]}
  end.

(** The keys that can be read off a descriptor sequence. *)
Definition keys_of (attrs : list descriptor) : list string :=
  omap key attrs.

(** ** Inputs of the scenarios *)

Definition scenario2_attrs : list descriptor :=
  [attr "title" (PStr "the title"); attr "desc.content" (PStr "the desc")].

Definition scenario3_attrs : list descriptor :=
  [attr "a.b" (PInt 1); attr "a.b.c" (PInt 2)].

Definition scenario4_upstream : item := PDict {[ "x" := PInt 1 ]}.

Definition scenario5_attrs : list descriptor := [attr EmptyString (PStr "v")].

(** An object that has a [value] but no [key] attribute. *)
Definition no_key : descriptor := Descriptor None (Some (PStr "v")).

(** A builder that always raises. *)
Definition failing_build (dicts : list flat_entry) : res item :=
  Raise AttributeError.

(** ** Facts about the embedding *)

Lemma split_not_nil sep s : split sep s ≠ [].
Proof.
  destruct s as [|c s]; simpl; [done|].
  destruct (Ascii.eqb c sep); [done|]. by destruct (split sep s).
Qed.

Lemma split_no_dot k : no_dot k = true → split "." k = [k].
Proof.
  induction k as [|c k IH]; simpl; [done|].
  intros [Hc Hk]%andb_true_iff. apply negb_true_iff in Hc.
  rewrite Hc, (IH Hk). done.
Qed.

(** *** Normalisation *)

Lemma normalize_ret a e : normalize a = Ret e → a = attr e.1 e.2.
Proof.
  destruct a as [[k|] [v|]]; unfold normalize; simpl; try done.
  by intros [= <-].
Qed.

Lemma normalize_has_attrs a :
  has_attrs a = true → ∃ e, normalize a = Ret e.
Proof. destruct a as [[k|] [v|]]; try done. by eexists. Qed.

Lemma normalize_no_attrs a : has_attrs a = false → normalize a = Raise AttributeError.
Proof. by destruct a as [[k|] [v|]]. Qed.

Lemma normalize_all_ret attrs ds :
  normalize_all attrs = Ret ds → attrs = (of_entry <$> ds).
Proof.
  revert ds. induction attrs as [|a attrs IH]; simpl; intros ds.
  - by intros [= <-].
  - destruct (normalize a) as [e|x] eqn:Ha; simpl; [|done].
    destruct (normalize_all attrs) as [ds'|x] eqn:Hds; simpl; [|done].
    intros [= <-]. simpl. by rewrite (normalize_ret _ _ Ha), (IH _ eq_refl).
Qed.

Lemma normalize_all_attr ds :
  normalize_all (of_entry <$> ds) = Ret ds.
Proof.
  induction ds as [|[k v] ds IH]; [done|].
  change (normalize_all (of_entry <$> (k, v) :: ds))
    with (ds' ← normalize_all (of_entry <$> ds); Ret ((k, v) :: ds')).
  by rewrite IH.
Qed.

Lemma normalize_all_has_attrs attrs :
  forallb has_attrs attrs = true → ∃ ds, normalize_all attrs = Ret ds.
Proof.
  induction attrs as [|a attrs IH]; simpl; [by eexists|].
  intros [Ha Hattrs]%andb_true_iff. destruct (IH Hattrs) as [ds ->].
  destruct (normalize_has_attrs _ Ha) as [e ->]. simpl. by eexists.
Qed.

Lemma normalize_all_raise attrs e : normalize_all attrs = Raise e → e = AttributeError.
Proof.
  induction attrs as [|a attrs IH]; simpl; [done|].
  destruct a as [[k|] [v|]]; simpl; try by intros [= <-].
  destruct (normalize_all attrs); simpl; [done|]. intros [= <-]. by apply IH.
Qed.

Lemma normalize_all_no_attrs attrs a :
  a ∈ attrs → has_attrs a = false → normalize_all attrs = Raise AttributeError.
Proof.
  intros Hin Ha. induction Hin as [a attrs|a b attrs Hin IH]; simpl.
  - by rewrite (normalize_no_attrs _ Ha).
  - rewrite (IH Ha). by destruct b as [[k|] [v|]].
Qed.

Lemma forallb_has_attrs_false attrs :
  forallb has_attrs attrs = false → ∃ a, a ∈ attrs ∧ has_attrs a = false.
Proof.
  induction attrs as [|a attrs IH]; simpl; [done|].
  destruct (has_attrs a) eqn:Ha; simpl.
  - intros (a' & Hin & Ha')%IH. exists a'. split; [by right|done].
  - intros _. exists a. split; [by left|done].
Qed.

(** *** Paths *)

Lemma conflict_sym p q : conflict p q → conflict q p.
Proof. unfold conflict. tauto. Qed.

Lemma conflict_nil_l q : conflict [] q.
Proof. left. apply prefix_nil. Qed.

Lemma conflict_cons s p q : conflict p q → conflict (s :: p) (s :: q).
Proof. intros [H|H]; [left|right]; by apply prefix_cons. Qed.

Lemma walk_scalar p v : p ≠ [] → is_dict v = false → walk p v = None.
Proof. destruct p; [done|]. by destruct v. Qed.

Lemma walk_empty p : p ≠ [] → walk p (PDict ∅) = None.
Proof. destruct p; [done|]. intros _. simpl. by rewrite lookup_empty. Qed.

Lemma walk_child s p m :
  p ≠ [] → walk p (PDict (child s m)) = walk (s :: p) (PDict m).
Proof.
  intros Hp. unfold child. simpl.
  destruct (m !! s) as [[| | |sub]|]; try done;
    rewrite walk_empty by done; symmetry; try done; by apply walk_scalar.
Qed.

(** Every proper prefix of a path that can be walked leads to a mapping. *)
Lemma walk_prefix_dict p1 s p2 x v :
  walk (p1 ++ s :: p2) x = Some v → ∃ m, walk p1 x = Some (PDict m).
Proof.
  revert x. induction p1 as [|t p1 IH]; simpl; intros x.
  - destruct x; try done. by eexists.
  - destruct x as [| | |m]; try done. destruct (m !! t); [|done]. apply IH.
Qed.

(** A write can be read back along its own path. *)
Lemma walk_set_path_same p v m :
  p ≠ [] → walk p (PDict (set_path p v m)) = Some v.
Proof.
  revert m. induction p as [|s p IH]; [done|]. intros m _.
  destruct p as [|s' p].
  - simpl. by rewrite lookup_insert_eq.
  - change (set_path (s :: s' :: p) v m)
      with (<[s := PDict (set_path (s' :: p) v (child s m))]> m).
    change (walk (s :: s' :: p) (PDict ?m'))
      with (match m' !! s with Some v' => walk (s' :: p) v' | None => None end).
    rewrite lookup_insert_eq. by apply IH.
Qed.

(** A write leaves every path that does not conflict with its own as it
    was. *)
Lemma walk_set_path_other p q v m :
  ¬ conflict p q → walk p (PDict (set_path q v m)) = walk p (PDict m).
Proof.
  revert p m. induction q as [|s q IH]; intros p m Hpq; [done|].
  destruct p as [|t p]; [by destruct Hpq; apply conflict_nil_l|].
  destruct (decide (t = s)) as [->|Hts].
  - assert (¬ conflict p q) as Hpq' by (intros H; by apply Hpq, conflict_cons).
    destruct q as [|s' q];
      [by destruct Hpq'; apply conflict_sym, conflict_nil_l|].
    assert (p ≠ []) as Hp
      by (intros ->; by destruct Hpq'; apply conflict_nil_l).
    change (set_path (s :: s' :: q) v m)
      with (<[s := PDict (set_path (s' :: q) v (child s m))]> m).
    change (walk (s :: p) (PDict ?m'))
      with (match m' !! s with Some v' => walk p v' | None => None end)
      at 1.
    rewrite lookup_insert_eq, (IH _ _ Hpq'). by apply walk_child.
  - simpl. destruct q; by rewrite lookup_insert_ne.
Qed.

(** *** The merge *)

Lemma merge_from_cons acc e dicts :
  merge_from acc (e :: dicts)
  = merge_from (set_path (split "." e.1) e.2 acc) dicts.
Proof. done. Qed.

(** Writes whose paths do not conflict with [p] leave [p] as it was. *)
Lemma merge_from_other p acc dicts :
  (∀ e, e ∈ dicts → ¬ conflict (split "." e.1) p)
  → walk p (PDict (merge_from acc dicts)) = walk p (PDict acc).
Proof.
  revert acc. induction dicts as [|e dicts IH]; intros acc Hfree; [done|].
  rewrite merge_from_cons.
  rewrite IH by (intros e' He'; apply Hfree; by right).
  apply walk_set_path_other. intros H%conflict_sym. revert H.
  apply Hfree. by left.
Qed.

(** Last write wins: the entry at position [i] is read back along its path
    unless a later entry has a conflicting path. *)
Lemma merge_from_lookup acc dicts i k v :
  dicts !! i = Some (k, v)
  → (∀ j e, i < j → dicts !! j = Some e → ¬ conflict (split "." e.1) (split "." k))
  → walk (split "." k) (PDict (merge_from acc dicts)) = Some v.
Proof.
  revert acc i. induction dicts as [|e dicts IH]; intros acc i; [done|].
  rewrite merge_from_cons.
  intros Hi Hlater. destruct i as [|i]; simpl in Hi.
  - injection Hi as ->. simpl. rewrite merge_from_other.
    + apply walk_set_path_same, split_not_nil.
    + intros e [j Hj]%list_elem_of_lookup. apply (Hlater (S j)); [lia|done].
  - apply (IH _ _ Hi). intros j e' Hij. apply (Hlater (S j)). lia.
Qed.

(** A single write into the empty item is the chain along its path. *)
Lemma set_path_empty p v : p ≠ [] → PDict (set_path p v ∅) = chain p v.
Proof.
  induction p as [|s p IH]; [done|]. intros _. destruct p as [|s' p].
  - simpl. by rewrite insert_empty.
  - change (set_path (s :: s' :: p) v ∅)
      with (<[s := PDict (set_path (s' :: p) v (child s ∅))]> (∅ : gmap string item)).
    unfold child. rewrite lookup_empty, IH, insert_empty by done. done.
Qed.

(** *** The parser *)

Lemma parser_with_dicts build dicts skip kwargs :
  parser_with build (of_entry <$> dicts) skip kwargs
  = (feed ← (if skip then getitem kwargs "feed" else build dicts);
     Ret (feed, skip)).
Proof. unfold parser_with. by rewrite normalize_all_attr. Qed.

Lemma parser_with_has_attrs build attrs skip kwargs :
  forallb has_attrs attrs = true
  → ∃ dicts, attrs = (of_entry <$> dicts)
      ∧ parser_with build attrs skip kwargs
        = (feed ← (if skip then getitem kwargs "feed" else build dicts);
           Ret (feed, skip)).
Proof.
  intros [dicts Hd]%normalize_all_has_attrs. exists dicts.
  split; [by apply normalize_all_ret|]. unfold parser_with. by rewrite Hd.
Qed.

Lemma parser_with_ret build attrs skip kwargs r :
  parser_with build attrs skip kwargs = Ret r
  → ∃ dicts, attrs = (of_entry <$> dicts)
      ∧ (if skip then getitem kwargs "feed" else build dicts) = Ret r.1
      ∧ r.2 = skip.
Proof.
  unfold parser_with.
  destruct (normalize_all attrs) as [dicts|x] eqn:Hd; simpl; [|done].
  destruct (if skip then _ else _) as [feed|x] eqn:Hf; simpl; [|done].
  intros [= <-]. exists dicts. by split; [apply normalize_all_ret|].
Qed.

Lemma keys_of_attr dicts : keys_of (of_entry <$> dicts) = dicts.*1.
Proof.
  unfold keys_of. induction dicts as [|[k v] dicts IH]; [done|].
  simpl. f_equal. exact IH.
Qed.

(** Entries with separator-free, pairwise distinct keys are written side by
    side at the top level. *)
Lemma merge_from_flat acc dicts :
  NoDup dicts.*1
  → forallb no_dot dicts.*1 = true
  → merge_from acc dicts = list_to_map dicts ∪ acc.
Proof.
  revert acc. induction dicts as [|[k v] dicts IH]; intros acc.
  - intros _ _. simpl. by rewrite (left_id_L ∅ (∪)).
  - intros [Hk Hnodup]%NoDup_cons [Hdot Hkeys]%andb_true_iff.
    simpl in Hdot. rewrite merge_from_cons. simpl.
    rewrite (split_no_dot _ Hdot). simpl.
    rewrite (IH _ Hnodup Hkeys).
    rewrite <-insert_union_l, insert_union_r; [done|].
    by apply not_elem_of_list_to_map.
Qed.

(** ** The skip gate *)

(** C4 (as amended): when skip is true, an upstream item is supplied and every
    descriptor exposes a key and a value, the parser returns exactly the
    supplied upstream item, whatever the builder would do on the descriptors:
    the merge is not run. *)
Theorem skip_returns_upstream build attrs kwargs feed
    (Hattrs : forallb has_attrs attrs = true)
    (Hfeed : kwargs !! "feed" = Some feed) :
  parser_with build attrs true kwargs = Ret (feed, true).
Proof.
  destruct (parser_with_has_attrs build attrs true kwargs Hattrs)
    as (dicts & _ & ->).
  unfold getitem. by rewrite Hfeed.
Qed.

Lemma skip_returns_upstream_witness :
  parser_with failing_build scenario3_attrs true
    {[ "feed" := scenario4_upstream ]}
  = Ret (scenario4_upstream, true).
Proof.
  apply (skip_returns_upstream failing_build scenario3_attrs
           {[ "feed" := scenario4_upstream ]} scenario4_upstream);
    reflexivity.
Defined.

(** C4 fails as stated: with a descriptor that has no [key] attribute the
    skipped call raises instead of returning the supplied upstream item. *)
Lemma skip_returns_upstream_counterexample :
  parser [no_key] true {[ "feed" := scenario4_upstream ]}
  = Raise AttributeError
  ∧ parser [no_key] true {[ "feed" := scenario4_upstream ]}
    ≠ Ret (scenario4_upstream, true).
Proof. split; [reflexivity | discriminate]. Qed.

(** C6 (as amended): when skip is true, no upstream item is supplied and every
    descriptor exposes a key and a value, the parser raises [KeyError] on
    ['feed'], an error of the [UpstreamMissing] kind; and whenever an
    upstream item is supplied, a skipped call raises no error of that kind. *)
Theorem skip_without_upstream build attrs kwargs
    (Hattrs : forallb has_attrs attrs = true)
    (Hfeed : kwargs !! "feed" = None) :
  parser_with build attrs true kwargs = Raise (KeyError "feed")
  ∧ fails_with UpstreamMissing (parser_with build attrs true kwargs)
  ∧ ∀ attrs' feed,
      ¬ fails_with UpstreamMissing
          (parser_with build attrs' true (<["feed" := feed]> kwargs)).
Proof.
  assert (parser_with build attrs true kwargs = Raise (KeyError "feed")) as Hp.
  { destruct (parser_with_has_attrs build attrs true kwargs Hattrs)
      as (dicts & _ & ->).
    unfold getitem. by rewrite Hfeed. }
  split; [done|]. split; [by rewrite Hp|].
  intros attrs' feed. unfold parser_with.
  destruct (normalize_all attrs') as [dicts|x] eqn:Hd; simpl.
  - unfold getitem. rewrite lookup_insert_eq. simpl. tauto.
  - by rewrite (normalize_all_raise _ _ Hd).
Qed.

Lemma skip_without_upstream_witness :
  parser_with DotDict_cdicts scenario3_attrs true ∅ = Raise (KeyError "feed")
  ∧ fails_with UpstreamMissing
      (parser_with DotDict_cdicts scenario3_attrs true ∅)
  ∧ ∀ attrs' feed,
      ¬ fails_with UpstreamMissing
          (parser_with DotDict_cdicts attrs' true (<["feed" := feed]> ∅)).
Proof.
  apply (skip_without_upstream DotDict_cdicts scenario3_attrs ∅);
    reflexivity.
Defined.

(** C6 fails as stated: with a descriptor that has no [key] attribute, a
    skipped call without upstream item raises [AttributeError], which is not
    of the [UpstreamMissing] kind. *)
Lemma skip_without_upstream_counterexample :
  parser [no_key] true ∅ = Raise AttributeError
  ∧ ¬ fails_with UpstreamMissing (parser [no_key] true ∅).
Proof. split; [reflexivity | discriminate]. Qed.

(** C9: the descriptors are normalised before the skip flag is looked at, so
    a descriptor without a readable [key] or [value] makes a skipped call
    raise [AttributeError] although the upstream item was supplied. *)
Theorem normalization_precedes_skip build attrs a kwargs feed
    (Hin : a ∈ attrs) (Ha : has_attrs a = false) :
  parser_with build attrs true (<["feed" := feed]> kwargs)
  = Raise AttributeError.
Proof.
  unfold parser_with. by rewrite (normalize_all_no_attrs _ _ Hin Ha).
Qed.

Lemma normalization_precedes_skip_witness :
  parser_with DotDict_cdicts [attr "title" (PStr "the title"); no_key] true
    (<["feed" := scenario4_upstream]> ∅)
  = Raise AttributeError.
Proof.
  apply (normalization_precedes_skip DotDict_cdicts
           [attr "title" (PStr "the title"); no_key] no_key ∅
           scenario4_upstream).
  - apply list_elem_of_In. simpl. tauto.
  - reflexivity.
Defined.

(** C10: a pair returned by the parser has the skip flag it was given as its
    second component, and the parser does return a pair as soon as the
    descriptors can be normalised and the chosen source of the feed (the
    upstream item when skipping, the builder otherwise) yields one. *)
Theorem parser_returns_skip build attrs skip kwargs :
  (∀ r, parser_with build attrs skip kwargs = Ret r → r.2 = skip)
  ∧ (∀ dicts feed,
       normalize_all attrs = Ret dicts
       → (if skip then kwargs !! "feed" = Some feed
          else build dicts = Ret feed)
       → parser_with build attrs skip kwargs = Ret (feed, skip)).
Proof.
  split.
  - intros r Hr. by destruct (parser_with_ret _ _ _ _ _ Hr) as (_ & _ & _ & ->).
  - intros dicts feed Hd Hfeed. unfold parser_with. rewrite Hd. simpl.
    destruct skip; [unfold getitem|]; by rewrite Hfeed.
Qed.

Lemma parser_returns_skip_witness :
  (parser_with DotDict_cdicts scenario3_attrs true
     {[ "feed" := scenario4_upstream ]}
   = Ret (scenario4_upstream, true))
  ∧ (PDict {[ "title" := PStr "the title" ]}, false).2 = false.
Proof.
  split.
  - apply (proj2 (parser_returns_skip DotDict_cdicts scenario3_attrs true
                    {[ "feed" := scenario4_upstream ]})
             [("a.b", PInt 1); ("a.b.c", PInt 2)]); reflexivity.
  - apply (proj1 (parser_returns_skip DotDict_cdicts
                    [attr "title" (PStr "the title")] false ∅)).
    reflexivity.
Defined.

(** ** The merge *)

(** The parser with skip false returns the merged item as soon as every
    descriptor exposes a key and a value. *)
Lemma parser_merge_returns attrs kwargs :
  forallb has_attrs attrs = true
  → ∃ m, parser attrs false kwargs = Ret (PDict m, false).
Proof.
  intros Hattrs.
  destruct (parser_with_has_attrs DotDict_cdicts attrs false kwargs Hattrs)
    as (dicts & -> & Hp).
  exists (merge_from ∅ dicts). unfold parser. by rewrite Hp.
Qed.

(** What a returned merge was computed from. *)
Lemma parser_merge_ret attrs kwargs feed s :
  parser attrs false kwargs = Ret (feed, s)
  → ∃ dicts, attrs = (of_entry <$> dicts)
      ∧ feed = PDict (merge_from ∅ dicts) ∧ s = false.
Proof.
  intros (dicts & Ha & Hb & Hs)%parser_with_ret. simpl in Hb, Hs.
  unfold DotDict_cdicts in Hb. exists dicts. by injection Hb as <-.
Qed.

(** Last write wins, on the parser: in a returned merge the descriptor at
    position [i] is read back along its path unless a later descriptor has a
    conflicting path. *)
Lemma parser_merge_lookup attrs kwargs feed s :
  parser attrs false kwargs = Ret (feed, s)
  → ∀ i k v,
      attrs !! i = Some (attr k v)
      → (∀ j k' v', i < j → attrs !! j = Some (attr k' v')
           → ¬ conflict (split "." k') (split "." k))
      → walk (split "." k) feed = Some v.
Proof.
  intros (dicts & -> & -> & ->)%parser_merge_ret.
  intros i k v Hi Hlater.
  apply (merge_from_lookup _ _ i).
  - rewrite list_lookup_fmap in Hi.
    destruct (dicts !! i) as [[k0 v0]|]; simpl in Hi; [|done].
    unfold of_entry, attr in Hi. by simplify_eq/=.
  - intros j [k' v'] Hij Hj. apply (Hlater j k' v' Hij).
    by rewrite list_lookup_fmap, Hj.
Qed.

(** C1 (as amended): merging returns an item as soon as every descriptor
    exposes a key and a value; and in every item the merge returns, walking a descriptor's path from the root reaches that
    descriptor's value unless a later descriptor has a conflicting path
    (a prefix of it, equal to it, or an extension of it).  In particular, of
    two descriptors with the same path the later one is read back, whatever
    stands before, between and (without conflict) after them. *)
Theorem merge_last_write_wins attrs kwargs :
  (forallb has_attrs attrs = true
   → ∃ m, parser attrs false kwargs = Ret (PDict m, false))
  ∧ (∀ feed s, parser attrs false kwargs = Ret (feed, s) →
       (∀ i k v,
          attrs !! i = Some (attr k v)
          → (∀ j k' v', i < j → attrs !! j = Some (attr k' v')
               → ¬ conflict (split "." k') (split "." k))
          → walk (split "." k) feed = Some v)
       ∧ (∀ l1 l2 l3 k1 k2 v1 v2,
            attrs = l1 ++ attr k1 v1 :: l2 ++ attr k2 v2 :: l3
            → split "." k1 = split "." k2
            → (∀ k' v', attr k' v' ∈ l3
                 → ¬ conflict (split "." k') (split "." k2))
            → walk (split "." k1) feed = Some v2)).
Proof.
  split; [apply parser_merge_returns|].
  intros feed s Hp.
  pose proof (parser_merge_lookup attrs kwargs feed s Hp) as Hgen.
  split; [exact Hgen|].
  intros l1 l2 l3 k1 k2 v1 v2 Hattrs Hk Hfree. rewrite Hk.
  apply (Hgen (length (l1 ++ attr k1 v1 :: l2))).
  - rewrite Hattrs.
    replace (l1 ++ attr k1 v1 :: l2 ++ attr k2 v2 :: l3)
      with ((l1 ++ attr k1 v1 :: l2) ++ attr k2 v2 :: l3)
      by (by rewrite <-app_assoc).
    apply list_lookup_middle. done.
  - intros j k' v' Hij Hj. apply (Hfree k' v').
    rewrite Hattrs in Hj.
    replace (l1 ++ attr k1 v1 :: l2 ++ attr k2 v2 :: l3)
      with ((l1 ++ attr k1 v1 :: l2) ++ attr k2 v2 :: l3) in Hj
      by (by rewrite <-app_assoc).
    rewrite lookup_app_r in Hj by lia.
    destruct (j - length (l1 ++ attr k1 v1 :: l2)) as [|n] eqn:Hn; [lia|].
    simpl in Hj. apply list_elem_of_lookup. by exists n.
Qed.

Lemma merge_last_write_wins_witness :
  (∃ m, parser [attr "a.b" (PInt 1); attr "x" (PInt 5); attr "a.b" (PInt 2)]
          false ∅ = Ret (PDict m, false))
  ∧ walk (split "." "x")
      (PDict {[ "a" := PDict {[ "b" := PInt 2 ]}; "x" := PInt 5 ]})
    = Some (PInt 5)
  ∧ walk (split "." "a.b")
      (PDict {[ "a" := PDict {[ "b" := PInt 2 ]}; "x" := PInt 5 ]})
    = Some (PInt 2).
Proof.
  pose proof (merge_last_write_wins
    [attr "a.b" (PInt 1); attr "x" (PInt 5); attr "a.b" (PInt 2)] ∅)
    as [Hret Hwalk].
  split; [apply Hret; reflexivity|].
  assert (parser [attr "a.b" (PInt 1); attr "x" (PInt 5); attr "a.b" (PInt 2)]
            false ∅
          = Ret (PDict {[ "a" := PDict {[ "b" := PInt 2 ]}; "x" := PInt 5 ]},
                 false)) as Hrun by (vm_compute; reflexivity).
  destruct (Hwalk _ _ Hrun) as [Hgen Hsame].
  split.
  - apply (Hgen 1). { reflexivity. }
    intros [|[|[|j]]] k' v' Hj Hl; try lia; [|done].
    injection Hl as <- <-. intros [H|H]; by apply prefix_cons_inv_1 in H.
  - apply (Hsame [] [attr "x" (PInt 5)] [] "a.b" "a.b" (PInt 1) (PInt 2));
      [reflexivity..|].
    intros k' v' H. by apply elem_of_nil in H.
Defined.

(** C1 fails as stated, where only a later path that is a prefix of, or equal
    to, an earlier one counts as a conflict: in scenario 3 the later path
    [a.b.c] is neither, and yet the first descriptor's value is no longer
    found at [a.b]. *)
Lemma merge_last_write_wins_counterexample :
  ∃ feed,
    parser scenario3_attrs false ∅ = Ret (feed, false)
    ∧ scenario3_attrs !! 0 = Some (attr "a.b" (PInt 1))
    ∧ (∀ j k' v', 0 < j → scenario3_attrs !! j = Some (attr k' v')
         → ¬ split "." k' `prefix_of` split "." "a.b")
    ∧ walk (split "." "a.b") feed ≠ Some (PInt 1).
Proof.
  eexists. split; [reflexivity|]. split; [reflexivity|]. split.
  - intros [|[|j]] k' v' Hj Hl; try lia; [|done].
    injection Hl as <- <-. intros H%prefix_length. simpl in H. lia.
  - discriminate.
Qed.

(** C2: scenario 3 returns exactly the item in which the scalar first written
    at [a.b] has been replaced by a mapping; and in general a write whose
    path runs through a segment occupied by a value that is not a mapping
    replaces that value by a new mapping holding the rest of the path, without
    raising. *)
Theorem scenario3_overwrites_scalar :
  (∀ kwargs,
     parser scenario3_attrs false kwargs
     = Ret (PDict {[ "a" := PDict {[ "b" := PDict {[ "c" := PInt 2 ]} ]} ]},
            false))
  ∧ (∀ s s' p x v m,
       is_dict x = false
       → set_path (s :: s' :: p) v (<[s := x]> m)
         = <[s := chain (s' :: p) v]> m).
Proof.
  split; [intros kwargs; vm_compute; reflexivity|].
  intros s s' p x v m Hx.
  change (set_path (s :: s' :: p) v (<[s := x]> m))
    with (<[s := PDict (set_path (s' :: p) v (child s (<[s := x]> m)))]>
            (<[s := x]> m)).
  unfold child. rewrite lookup_insert_eq, insert_insert_eq.
  destruct x; try done; by rewrite set_path_empty.
Qed.

Lemma scenario3_overwrites_scalar_witness :
  set_path ["a"; "b"; "c"] (PInt 2) (<["a" := PInt 1]> ∅)
  = <["a" := chain ["b"; "c"] (PInt 2)]> ∅.
Proof.
  apply (proj2 scenario3_overwrites_scalar "a" "b" ["c"] (PInt 1) (PInt 2) ∅).
  reflexivity.
Defined.

(** C3: scenario 2 returns exactly the stated item; a single descriptor
    yields the chain of mappings along its path, ending in its value; and in every merge the last descriptor's path of [k] segments
    can be walked to its value through [k - 1] nested mappings, one after
    each proper, non-empty prefix of the path. *)
Theorem scenario2_dot_path_chain :
  (∀ kwargs,
     parser scenario2_attrs false kwargs
     = Ret (PDict {[ "title" := PStr "the title";
                     "desc" := PDict {[ "content" := PStr "the desc" ]} ]},
            false))
  ∧ (∀ k v kwargs,
       parser [attr k v] false kwargs = Ret (chain (split "." k) v, false))
  ∧ (∀ attrs k v kwargs feed s,
       parser (attrs ++ [attr k v]) false kwargs = Ret (feed, s)
       → walk (split "." k) feed = Some v
         ∧ ∀ n, 0 < n < length (split "." k)
             → ∃ m, walk (take n (split "." k)) feed = Some (PDict m)).
Proof.
  split; [intros kwargs; vm_compute; reflexivity|]. split.
  - intros k v kwargs. unfold parser, parser_with. simpl.
    unfold DotDict_cdicts, set_entry, parse_key. simpl.
    rewrite set_path_empty; [done|apply split_not_nil].
  - intros attrs k v kwargs feed s Hp.
    assert (walk (split "." k) feed = Some v) as Hwalk.
    { apply (parser_merge_lookup _ _ _ _ Hp (length attrs));
        [by apply list_lookup_middle|].
      intros j k' v' Hj Hl. apply lookup_lt_Some in Hl.
      rewrite length_app in Hl. simpl in Hl. lia. }
    split; [done|]. intros n Hn.
    rewrite <-(take_drop n (split "." k)) in Hwalk at 1.
    destruct (drop n (split "." k)) as [|seg rest] eqn:Hdrop.
    + apply (f_equal length) in Hdrop. rewrite length_drop in Hdrop.
      simpl in Hdrop. lia.
    + by apply walk_prefix_dict in Hwalk.
Qed.

Lemma scenario2_dot_path_chain_witness :
  parser [attr "desc.content" (PStr "the desc")] false ∅
  = Ret (chain ["desc"; "content"] (PStr "the desc"), false)
  ∧ walk ["desc"; "content"]
      (PDict {[ "title" := PStr "the title";
                "desc" := PDict {[ "content" := PStr "the desc" ]} ]})
    = Some (PStr "the desc")
  ∧ ∃ m, walk (take 1 ["desc"; "content"])
           (PDict {[ "title" := PStr "the title";
                     "desc" := PDict {[ "content" := PStr "the desc" ]} ]})
         = Some (PDict m).
Proof.
  destruct scenario2_dot_path_chain as (Hrun & Hone & Hlast).
  split; [apply (Hone "desc.content" (PStr "the desc") ∅)|].
  destruct (Hlast [attr "title" (PStr "the title")] "desc.content"
              (PStr "the desc") ∅ _ _ (Hrun ∅)) as [Hwalk Hpre].
  split; [exact Hwalk|]. apply (Hpre 1). simpl. lia.
Defined.




(** C7: for descriptors that expose a key and a value and whose keys are
    pairwise distinct and free of the separator, the parser with skip false
    returns an item with exactly one top-level entry per descriptor, mapping
    that descriptor's key to its value, and no other key.  (The empty
    sequence is covered as well: it gives the empty item.) *)
Theorem unique_flat_keys attrs kwargs
    (Hattrs : forallb has_attrs attrs = true)
    (Hnodup : NoDup (keys_of attrs))
    (Hkeys : forallb no_dot (keys_of attrs) = true) :
  ∃ m,
    parser attrs false kwargs = Ret (PDict m, false)
    ∧ (∀ k v, attr k v ∈ attrs → m !! k = Some v)
    ∧ (∀ k, is_Some (m !! k) → k ∈ keys_of attrs)
    ∧ size m = length attrs.
Proof.
  destruct (parser_with_has_attrs DotDict_cdicts attrs false kwargs Hattrs)
    as (dicts & -> & Hp).
  rewrite keys_of_attr in Hnodup, Hkeys |- *.
  exists (list_to_map dicts). split; [|split; [|split]].
  - unfold parser. rewrite Hp. unfold DotDict_cdicts.
    rewrite (merge_from_flat ∅ dicts Hnodup Hkeys). simpl.
    by rewrite (right_id_L ∅ (∪)).
  - intros k v ([k0 v0] & Heq & Hin)%list_elem_of_fmap.
    unfold of_entry, attr in Heq. simplify_eq/=.
    by apply elem_of_list_to_map.
  - intros k Hk. apply dec_stable. intros Hnot.
    apply not_elem_of_list_to_map in Hnot. rewrite Hnot in Hk.
    by destruct Hk.
  - rewrite length_fmap. by apply map_size_list_to_map.
Qed.

Lemma unique_flat_keys_witness :
  ∃ m,
    parser [attr "title" (PStr "the title"); attr "desc" (PStr "the desc")]
      false ∅ = Ret (PDict m, false)
    ∧ (∀ k v,
         attr k v
         ∈ [attr "title" (PStr "the title"); attr "desc" (PStr "the desc")]
         → m !! k = Some v)
    ∧ (∀ k, is_Some (m !! k)
         → k ∈ keys_of [attr "title" (PStr "the title");
                        attr "desc" (PStr "the desc")])
    ∧ size m
      = length [attr "title" (PStr "the title"); attr "desc" (PStr "the desc")].
Proof.
  apply (unique_flat_keys
           [attr "title" (PStr "the title"); attr "desc" (PStr "the desc")] ∅).
  - reflexivity.
  - apply NoDup_ListNoDup. repeat constructor; simpl; intuition discriminate.
  - reflexivity.
Defined.

(** ** Further properties of the parser *)

Lemma normalize_all_raise_inv attrs e :
  normalize_all attrs = Raise e
  → e = AttributeError ∧ ∃ a, a ∈ attrs ∧ has_attrs a = false.
Proof.
  intros He. split; [by apply (normalize_all_raise attrs)|].
  apply forallb_has_attrs_false.
  destruct (forallb has_attrs attrs) eqn:Hall; [|done].
  destruct (normalize_all_has_attrs _ Hall) as [ds Hds]. congruence.
Qed.

Lemma normalize_all_ret_has_attrs attrs dicts :
  normalize_all attrs = Ret dicts → forallb has_attrs attrs = true.
Proof.
  intros Hd. destruct (forallb has_attrs attrs) eqn:Hall; [done|].
  destruct (forallb_has_attrs_false _ Hall) as (a & Hin & Ha).
  rewrite (normalize_all_no_attrs _ _ Hin Ha) in Hd. done.
Qed.

(** X1: the comprehension of line 66 keeps the descriptors' order and number.
    When it returns, entry [i] is the (key, value) pair of descriptor [i], the
    descriptors can be read back off the entries, and normalising those again
    gives the same entries. *)
Theorem normalize_all_order attrs dicts
    (Hd : normalize_all attrs = Ret dicts) :
  of_entry <$> dicts = attrs
  ∧ length dicts = length attrs
  ∧ (∀ i k v, dicts !! i = Some (k, v) ↔ attrs !! i = Some (attr k v))
  ∧ normalize_all (of_entry <$> dicts) = Ret dicts.
Proof.
  apply normalize_all_ret in Hd as ->.
  split; [done|]. split; [by rewrite length_fmap|].
  split; [|apply normalize_all_attr].
  intros i k v. rewrite list_lookup_fmap.
  destruct (dicts !! i) as [[k0 v0]|]; simpl; [|done].
  unfold of_entry, attr. simpl. split; intros H; by simplify_eq.
Qed.

Lemma normalize_all_order_witness :
  of_entry <$> [("a.b", PInt 1); ("a.b.c", PInt 2)] = scenario3_attrs
  ∧ length [("a.b", PInt 1); ("a.b.c", PInt 2)] = length scenario3_attrs
  ∧ (∀ i k v, [("a.b", PInt 1); ("a.b.c", PInt 2)] !! i = Some (k, v)
       ↔ scenario3_attrs !! i = Some (attr k v))
  ∧ normalize_all (of_entry <$> [("a.b", PInt 1); ("a.b.c", PInt 2)])
    = Ret [("a.b", PInt 1); ("a.b.c", PInt 2)].
Proof.
  apply (normalize_all_order scenario3_attrs
           [("a.b", PInt 1); ("a.b.c", PInt 2)]).
  reflexivity.
Defined.

(** X2: a descriptor on which [key] or [value] cannot be read decides the
    outcome in either mode: the parser raises [AttributeError] whatever the
    skip flag, the keyword arguments and the builder are.  With skip false the
    builder is not run on the readable descriptors, and with skip true and no
    ['feed'] the error is not the [KeyError]. *)
Theorem unreadable_descriptor_dominates build attrs skip kwargs a
    (Hin : a ∈ attrs) (Ha : has_attrs a = false) :
  parser_with build attrs skip kwargs = Raise AttributeError.
Proof.
  unfold parser_with. by rewrite (normalize_all_no_attrs _ _ Hin Ha).
Qed.

Lemma unreadable_descriptor_dominates_witness :
  parser_with DotDict_cdicts [attr "title" (PStr "the title"); no_key] false ∅
  = Raise AttributeError.
Proof.
  apply (unreadable_descriptor_dominates DotDict_cdicts
           [attr "title" (PStr "the title"); no_key] false ∅ no_key).
  - apply list_elem_of_In. simpl. tauto.
  - reflexivity.
Defined.

(** X3: the exceptions of the parser, exactly.  It raises [e] if and only if
    [e] is the [AttributeError] of an unreadable descriptor, or the
    [KeyError] on ['feed'] of a skipped call whose descriptors are readable
    and that was given no ['feed'], or the exception the builder raised on
    the entries of a call that is not skipped.  It raises nothing else: no
    [KeyError] on another key, and none at all when skip is false unless the
    builder does. *)
Theorem parser_raises_iff build attrs skip kwargs e :
  parser_with build attrs skip kwargs = Raise e
  ↔ (e = AttributeError ∧ ∃ a, a ∈ attrs ∧ has_attrs a = false)
    ∨ (skip = true ∧ e = KeyError "feed" ∧ kwargs !! "feed" = None
       ∧ forallb has_attrs attrs = true)
    ∨ (skip = false
       ∧ ∃ dicts, normalize_all attrs = Ret dicts ∧ build dicts = Raise e).
Proof.
  unfold parser_with. split.
  - destruct (normalize_all attrs) as [dicts|x] eqn:Hd; simpl.
    + pose proof (normalize_all_ret_has_attrs _ _ Hd) as Hall.
      destruct skip.
      * unfold getitem. destruct (kwargs !! "feed") eqn:Hfeed; simpl; [done|].
        intros [= <-]. right. left. done.
      * destruct (build dicts) as [feed|x] eqn:Hb; simpl; [done|].
        intros [= <-]. right. right. split; [done|]. by exists dicts.
    + intros [= <-]. left. by apply normalize_all_raise_inv.
  - intros [(-> & a & Hin & Ha)|[(-> & -> & Hfeed & Hall)|(-> & dicts & Hd & Hb)]].
    + by rewrite (normalize_all_no_attrs _ _ Hin Ha).
    + destruct (normalize_all_has_attrs _ Hall) as [dicts ->]. simpl.
      unfold getitem. by rewrite Hfeed.
    + rewrite Hd. simpl. by rewrite Hb.
Qed.

Lemma parser_raises_iff_witness :
  parser_with failing_build scenario3_attrs false ∅ = Raise AttributeError.
Proof.
  apply (proj2 (parser_raises_iff failing_build scenario3_attrs false ∅
                  AttributeError)).
  right. right. split; [reflexivity|].
  exists [("a.b", PInt 1); ("a.b.c", PInt 2)]. split; reflexivity.
Defined.

(** X4: a skipped call looks at nothing but the readability of the
    descriptors and the ['feed'] keyword argument.  Two skipped calls whose
    descriptor sequences are both readable or both not, and whose keyword
    arguments agree on ['feed'], have the same outcome, whatever the keys and
    values of the descriptors, the other keyword arguments and the builders
    are. *)
Theorem skip_mode_depends_on build1 build2 attrs1 attrs2 kwargs1 kwargs2
    (Hattrs : forallb has_attrs attrs1 = forallb has_attrs attrs2)
    (Hfeed : kwargs1 !! "feed" = kwargs2 !! "feed") :
  parser_with build1 attrs1 true kwargs1
  = parser_with build2 attrs2 true kwargs2.
Proof.
  destruct (forallb has_attrs attrs1) eqn:H1; symmetry in Hattrs.
  - destruct (parser_with_has_attrs build1 attrs1 true kwargs1 H1)
      as (d1 & _ & ->).
    destruct (parser_with_has_attrs build2 attrs2 true kwargs2 Hattrs)
      as (d2 & _ & ->).
    unfold getitem. by rewrite Hfeed.
  - destruct (forallb_has_attrs_false _ H1) as (a1 & Hin1 & Ha1).
    destruct (forallb_has_attrs_false _ Hattrs) as (a2 & Hin2 & Ha2).
    unfold parser_with.
    by rewrite (normalize_all_no_attrs _ _ Hin1 Ha1),
      (normalize_all_no_attrs _ _ Hin2 Ha2).
Qed.

Lemma skip_mode_depends_on_witness :
  parser_with DotDict_cdicts scenario2_attrs true
    {[ "feed" := scenario4_upstream ]}
  = parser_with failing_build scenario5_attrs true
      (<["conf" := PNone]> {[ "feed" := scenario4_upstream ]}).
Proof.
  apply (skip_mode_depends_on DotDict_cdicts failing_build scenario2_attrs
           scenario5_attrs); reflexivity.
Defined.

(** X5: the comprehension of line 66 distributes over concatenation: the
    entries of a concatenation are the entries of its first part followed by
    those of its second, and the whole raises as soon as either part does. *)
Theorem normalize_all_app attrs1 attrs2 :
  normalize_all (attrs1 ++ attrs2)
  = (d1 ← normalize_all attrs1; d2 ← normalize_all attrs2; Ret (d1 ++ d2)).
Proof.
  induction attrs1 as [|a attrs1 IH]; simpl.
  - by destruct (normalize_all attrs2).
  - rewrite IH. destruct (normalize a) as [e|x]; simpl; [|done].
    destruct (normalize_all attrs1) as [d1|x]; simpl; [|done].
    by destruct (normalize_all attrs2).
Qed.
